(** * HelmholtzCoil: magnetic fields of current loops and (anti-)Helmholtz coils

    A shallow embedding of [HelmholtzCoil.py].  Numbers are real numbers
    (the arithmetic of the module, without rounding and without overflow).
    A function of the module either returns a number or fails; the two ways
    it can fail are kept apart:

    - a name that is not bound in the module is looked up ([NameError]);
    - the arithmetic has no finite real result: a division by zero
      ([ZeroDivisionError] on Python numbers, [inf] or [nan] on numpy
      numbers) or a complete elliptic integral taken outside its domain
      ([Singular]).

    [NotModelled] marks a call this development does not follow (see
    [call_global]); no function of the module reaches it.

    The module computes in double precision.  What it returns to the last
    bit is followed in [Double], on binary64 numbers, for the two functions
    that meet on the axis. *)

From Stdlib Require Import Floats.PrimFloat.
From Stdlib Require Import Reals Lra Lia List String ZArith.
Import ListNotations.

Open Scope R_scope.

(** The module names a loop's radius [R]; the type of real numbers is
    written [real]. *)
Abbreviation real := R.

(** ** Outcomes of a call *)

Inductive failure : Type :=
  | NameError (name : string)
  | Singular
  | NotModelled (name : string).

Inductive result (A : Type) : Type :=
  | Val (a : A)
  | Raise (e : failure).

Arguments Val {A} a.
Arguments Raise {A} e.

Definition bind {A B : Type} (r : result A) (k : A -> result B) : result B :=
  match r with
  | Val a => k a
  | Raise e => Raise e
  end.

Notation "x <- r ;; k" := (bind r (fun x => k))
  (at level 61, r at next level, right associativity).

(** [a / b]: no finite result when [b] is zero. *)
Definition div (a b : real) : result real :=
  if Req_dec_T b 0 then Raise Singular else Val (a / b).

(** [x ** y] on floats, for a base [x >= 0] and an exponent [y > 0]: the
    module only raises sums of squares to the power [3/2]. *)
Definition float_pow (x y : real) : real :=
  if Req_dec_T x 0 then 0 else Rpower x y.

(** An array of three numbers: [(f_rho, f_phi, f_z)]. *)
Definition vec : Type := real * real * real.

(** vacuum permeability *)
Definition mu0 : real := 4 * PI * 1e-7.

(** The series of the complete elliptic integrals [K(m)] and [E(m)] cut
    after the term in [m^2]; both are [pi/2] at [m = 0].  They stand for
    [K] and [E] where the functions are run on concrete inputs. *)
Definition K_series (m : real) : real :=
  PI / 2 * (1 + m / 4 + 9 * m ^ 2 / 64).

Definition E_series (m : real) : real :=
  PI / 2 * (1 - m / 4 - 3 * m ^ 2 / 64).

(** ** Double precision *)

(** [FieldLoopBz] and [FieldLoopOnAxis] on binary64 numbers, with the
    rounding of every operation.  Overflow is not followed. *)
Module Double.

Local Open Scope float_scope.

(** [np.pi] *)
Definition pi : float := 0x1.921fb54442d18p+1.

(** [a / b]: no finite result when [b] is zero. *)
Definition div (a b : float) : result float :=
  if b =? 0 then Raise Singular else Val (a / b).

(** The three exponents the module raises a number to. *)
Inductive exponent : Type := Two | Three | ThreeHalves.

(** [x ** y]: Python hands it to the [pow] of the C library, which returns
    the power itself whenever that is a binary64 number.  So do the
    products and the square root below, and [power] is [pow] at such
    arguments; where the power has to be rounded, [pow] may return the
    other neighbour. *)
Definition power (x : float) (y : exponent) : float :=
  match y with
  | Two => x * x
  | Three => x * x * x
  | ThreeHalves => x * PrimFloat.sqrt x
  end.

(** Modelled from the spec: [scipy.special.ellipk] and [scipy.special.ellipe]
    are not part of the repository; the spec gives their value at [m = 0]
    only, [K(0) = E(0) = pi/2] exactly, which is what a point of the axis
    asks for. *)
Definition ellipk (m : float) : result float :=
  if m =? 0 then Val (pi / 2) else Raise (NotModelled "scipy.special.ellipk").

Definition ellipe (m : float) : result float :=
  if m =? 0 then Val (pi / 2) else Raise (NotModelled "scipy.special.ellipe").

Definition FieldLoopBz (z rho R : float) : result float :=
  ksq <- div (4 * R * rho) (power (R + rho) Two + power z Two) ;;
  K <- ellipk ksq ;;
  E <- ellipe ksq ;;
  a <- div R (pi * PrimFloat.sqrt (power (R + rho) Two + power z Two)) ;;
  b <- div (E * (power R Two - power rho Two - power z Two))
           (power (R - rho) Two + power z Two) ;;
  Val (a * (K + b)).

Definition FieldLoopOnAxis (z R : float) : result float :=
  div (power R Three) (power (power R Two + power z Two) ThreeHalves).

End Double.

Section HelmholtzCoil.

(** The complete elliptic integrals of the first and the second kind, as
    functions of the parameter [m] (the square of the modulus). *)
Variables EllipticK EllipticE : real -> real.

(** [scipy.special.ellipk(m)] is [EllipticK m] for [m < 1], [inf] at [m = 1] and
    [nan] above. *)
Definition ellipk (m : real) : result real :=
  if Rlt_dec m 1 then Val (EllipticK m) else Raise Singular.

(** [scipy.special.ellipe(m)] is [EllipticE m] for [m <= 1] and [nan] above. *)
Definition ellipe (m : real) : result real :=
  if Rle_dec m 1 then Val (EllipticE m) else Raise Singular.

(** ** Current loop *)

Definition FieldLoopBz (z rho R : real) : result real :=
  ksq <- div (4 * R * rho) ((R + rho) ^ 2 + z ^ 2) ;;
  K <- ellipk ksq ;;
  E <- ellipe ksq ;;
  a <- div R (PI * sqrt ((R + rho) ^ 2 + z ^ 2)) ;;
  b <- div (E * (R ^ 2 - rho ^ 2 - z ^ 2)) ((R - rho) ^ 2 + z ^ 2) ;;
  Val (a * (K + b)).

Definition MagneticFieldLoopBz (z rho R I : real) : result real :=
  c <- div (mu0 * I) (2 * R) ;;
  f <- FieldLoopBz z rho R ;;
  Val (c * f).

(** The statements of [FieldLoopBrho] below its test [rho == 0]. *)
Definition FieldLoopBrho_closed_form (z rho R : real) : result real :=
  ksq <- div (4 * R * rho) ((R + rho) ^ 2 + z ^ 2) ;;
  K <- ellipk ksq ;;
  E <- ellipe ksq ;;
  a <- div (R * z) (PI * rho * sqrt ((R + rho) ^ 2 + z ^ 2)) ;;
  b <- div (E * (R ^ 2 + rho ^ 2 + z ^ 2)) ((R - rho) ^ 2 + z ^ 2) ;;
  Val (a * (- K + b)).

Definition FieldLoopBrho (z rho R : real) : result real :=
  if Req_dec_T rho 0 then Val 0
  else FieldLoopBrho_closed_form z rho R.

Definition MagneticFieldLoopBrho (z rho R I : real) : result real :=
  c <- div (mu0 * I) (2 * R) ;;
  f <- FieldLoopBrho z rho R ;;
  Val (c * f).

Definition FieldLoopOnAxis (z R : real) : result real :=
  div (R ^ 3) (float_pow (R ^ 2 + z ^ 2) (3 / 2)).

Definition MagneticFieldLoopOnAxis (z R I : real) : result real :=
  c <- div (mu0 * I) (2 * R) ;;
  f <- FieldLoopOnAxis z R ;;
  Val (c * f).

(** ** The loop as [N] straight wires *)

(** [np.cross(a, b)], [a + b], [np.linalg.norm(a)] and [a / c] on arrays of
    three numbers. *)
Definition cross (a b : vec) : vec :=
  let '(a1, a2, a3) := a in
  let '(b1, b2, b3) := b in
  (a2 * b3 - a3 * b2, a3 * b1 - a1 * b3, a1 * b2 - a2 * b1).

Definition vadd (a b : vec) : vec :=
  let '(a1, a2, a3) := a in
  let '(b1, b2, b3) := b in
  (a1 + b1, a2 + b2, a3 + b3).

Definition norm (a : vec) : real :=
  let '(a1, a2, a3) := a in sqrt (a1 ^ 2 + a2 ^ 2 + a3 ^ 2).

Definition vdiv (a : vec) (c : real) : result vec :=
  let '(a1, a2, a3) := a in
  x <- div a1 c ;;
  y <- div a2 c ;;
  z <- div a3 c ;;
  Val (x, y, z).

(** [for i in range(n): a = body(i, a)], from [i = start]. *)
Fixpoint for_range {A : Type} (start n : nat) (body : nat -> A -> result A)
    (a : A) : result A :=
  match n with
  | O => Val a
  | S n' => a' <- body start a ;; for_range (S start) n' body a'
  end.

(** One turn of the loop of [FieldLoopDiscrete]: the contribution of the
    wire from [theta0] to [theta1], added to [bf]. *)
Definition segment (z rho : real) (N : Z) (i : nat) (bf : vec) : result vec :=
  theta0 <- div (INR i * 2 * PI) (IZR N) ;;
  step <- div (2 * PI) (IZR N) ;;
  let theta1 := theta0 + step in
  let dl := (cos theta1 - cos theta0, sin theta1 - sin theta0, 0) in
  let s := (rho - cos theta0, - sin theta0, z) in
  let ns := norm s in
  dbf <- vdiv (cross dl s) (ns ^ 3) ;;
  Val (vadd bf dbf).

(** The statements of [FieldLoopDiscrete] below its test on [z] and [rho]. *)
Definition FieldLoopDiscrete_loop (z rho : real) (N : Z) (bf : vec) : result vec :=
  bf <- for_range 0 (Z.to_nat N) (segment z rho N) bf ;;
  vdiv bf (2 * PI).

Definition FieldLoopDiscrete (z rho : real) (N : Z) : result vec :=
  let bf := (0, 0, 0) in
  if Req_dec_T z 0 then
    if Req_dec_T (Rabs rho) 1 then Val bf
    else FieldLoopDiscrete_loop z rho N bf
  else FieldLoopDiscrete_loop z rho N bf.

(** ** Calls by name *)

(** Every name bound at the top level of the module once it is loaded. *)
Definition module_names : list string :=
  [ "np"; "scipy"; "mu0";
    "FieldLoopBz"; "MagneticFieldLoopBz";
    "FieldLoopBrho"; "MagneticFieldLoopBrho";
    "FieldLoopOnAxis"; "MagneticFieldLoopOnAxis";
    "FieldLoopDiscrete";
    "FieldHelmholtzOnAxis"; "MagneticFieldHelmholtzOnAxis";
    "FieldHelmholtzBz"; "MagneticFieldHelmholtzBz";
    "FieldHelmholtzBrho"; "MagneticFieldHelmholtzBrho";
    "FieldAntiHelmholtzOnAxis"; "MagneticFieldAntiHelmholtzOnAxis";
    "FieldAntiHelmholtzBz"; "MagneticFieldAntiHelmholtzBz";
    "FieldAntiHelmholtzBrho"; "MagneticFieldAntiHelmholtzBrho" ]%string.

(** The two functions of [(z, rho, R)] that the coil functions call by
    name. *)
Definition loop_fields : list (string * (real -> real -> real -> result real)) :=
  [ ("FieldLoopBz"%string, FieldLoopBz);
    ("FieldLoopBrho"%string, FieldLoopBrho) ].

Fixpoint assoc {A : Type} (name : string) (l : list (string * A)) : option A :=
  match l with
  | [] => None
  | (n, a) :: l' => if String.eqb name n then Some a else assoc name l'
  end.

(** [name(z, rho, R)]: the name is looked up in the module when the call
    runs, and a name the module does not bind raises [NameError]. *)
Definition call_global (name : string) (z rho R : real) : result real :=
  if existsb (String.eqb name) module_names then
    match assoc name loop_fields with
    | Some f => f z rho R
    | None => Raise (NotModelled name)
    end
  else Raise (NameError name).

(** ** Helmholtz coil *)

Definition FieldHelmholtzOnAxis (z R : real) : result real :=
  a <- div (R ^ 3) (float_pow (R ^ 2 + (z + R / 2) ^ 2) (3 / 2)) ;;
  b <- div (R ^ 3) (float_pow (R ^ 2 + (z - R / 2) ^ 2) (3 / 2)) ;;
  Val (a + b).

Definition MagneticFieldHelmholtzOnAxis (z R I : real) : result real :=
  c <- div (mu0 * I) (2 * R) ;;
  f <- FieldHelmholtzOnAxis z R ;;
  Val (c * f).

Definition FieldHelmholtzBz (z rho R : real) : result real :=
  a <- call_global "FieldLoopBz" (z + R / 2) rho R ;;
  b <- call_global "FieldLoopBz" (z - R / 2) rho R ;;
  Val (a + b).

Definition MagneticFieldHelmholtzBz (z rho R I : real) : result real :=
  c <- div (mu0 * I) (2 * R) ;;
  f <- FieldHelmholtzBz z rho R ;;
  Val (c * f).

Definition FieldHelmholtzBrho (z rho R : real) : result real :=
  a <- call_global "FieldLoopBro" (z + R / 2) rho R ;;
  b <- call_global "FieldLoopBrho" (z - R / 2) rho R ;;
  Val (a + b).

Definition MagneticFieldHelmholtzBrho (z rho R I : real) : result real :=
  c <- div (mu0 * I) (2 * R) ;;
  f <- FieldHelmholtzBrho z rho R ;;
  Val (c * f).

(** ** Anti Helmholtz coil *)

Definition FieldAntiHelmholtzOnAxis (z R : real) : result real :=
  a <- div (R ^ 3) (float_pow (R ^ 2 + (z + R / 2) ^ 2) (3 / 2)) ;;
  b <- div (R ^ 3) (float_pow (R ^ 2 + (z - R / 2) ^ 2) (3 / 2)) ;;
  Val (a - b).

Definition MagneticFieldAntiHelmholtzOnAxis (z R I : real) : result real :=
  c <- div (mu0 * I) (2 * R) ;;
  f <- FieldAntiHelmholtzOnAxis z R ;;
  Val (c * f).

Definition FieldAntiHelmholtzBz (z rho R : real) : result real :=
  a <- call_global "FieldLoopBz" (z + R / 2) rho R ;;
  b <- call_global "FieldLoopBz" (z - R / 2) rho R ;;
  Val (a - b).

Definition MagneticFieldAntiHelmholtzBz (z rho R I : real) : result real :=
  c <- div (mu0 * I) (2 * R) ;;
  f <- FieldAntiHelmholtzBz z rho R ;;
  Val (c * f).

Definition FieldAntiHelmholtzBrho (z rho R : real) : result real :=
  a <- call_global "FieldLoopBro" (z + R / 2) rho R ;;
  b <- call_global "FieldLoopBrho" (z - R / 2) rho R ;;
  Val (a - b).

Definition MagneticFieldAntiHelmholtzBrho (z rho R I : real) : result real :=
  c <- div (mu0 * I) (2 * R) ;;
  f <- FieldAntiHelmholtzBrho z rho R ;;
  Val (c * f).

(** ** The axial field as the specification words it *)

(** The parameter handed to the elliptic integrals. *)
Definition ksq_spec (z rho R : real) : real :=
  4 * R * rho / ((R + rho) ^ 2 + z ^ 2).

(** Away from the wire ([z = 0] and [|rho| = R]) the axial field is the
    closed form with [K] and [E] taken at the parameter [ksq]; on the wire
    there is no finite value. *)
Definition FieldLoopBz_spec (z rho R : real) : result real :=
  let on_wire :=
    if Req_dec_T z 0 then if Req_dec_T (Rabs rho) R then true else false
    else false in
  if on_wire then Raise Singular
  else
    Val (R / (PI * sqrt ((R + rho) ^ 2 + z ^ 2))
         * (EllipticK (ksq_spec z rho R)
            + EllipticE (ksq_spec z rho R) * (R ^ 2 - rho ^ 2 - z ^ 2)
              / ((R - rho) ^ 2 + z ^ 2))).

(** ** The physical field as the specification words it *)

(** A dimensionless field times [mu0*I/(2*R)], in Tesla. *)
Definition in_tesla (R I : real) (field : result real) : result real :=
  f <- field ;; Val (mu0 * I / (2 * R) * f).

(** * Properties *)

(** ** Arithmetic of the primitives *)

Lemma div_Val (a b : real) : b <> 0 -> div a b = Val (a / b).
Proof.
  intros Hb. unfold div. destruct (Req_dec_T b 0) as [H0 | _].
  - contradiction.
  - reflexivity.
Qed.

Lemma div_by_zero (a b : real) : b = 0 -> div a b = Raise Singular.
Proof.
  intros Hb. unfold div. destruct (Req_dec_T b 0) as [_ | H0].
  - reflexivity.
  - contradiction.
Qed.

Lemma ellipk_Val (m : real) : m < 1 -> ellipk m = Val (EllipticK m).
Proof.
  intros Hm. unfold ellipk. destruct (Rlt_dec m 1); [reflexivity | contradiction].
Qed.

Lemma ellipe_Val (m : real) : m <= 1 -> ellipe m = Val (EllipticE m).
Proof.
  intros Hm. unfold ellipe. destruct (Rle_dec m 1); [reflexivity | contradiction].
Qed.

Lemma ellipk_at_1 (m : real) : 1 <= m -> ellipk m = Raise Singular.
Proof.
  intros Hm. unfold ellipk. destruct (Rlt_dec m 1); [lra | reflexivity].
Qed.

Lemma sum_squares_pos (a b : real) : a <> 0 \/ b <> 0 -> 0 < a ^ 2 + b ^ 2.
Proof.
  intros [H | H].
  - destruct (Rtotal_order a 0) as [Hlt | [Heq | Hgt]]; [nra | contradiction | nra].
  - destruct (Rtotal_order b 0) as [Hlt | [Heq | Hgt]]; [nra | contradiction | nra].
Qed.

(** The parameter stays below [1] wherever the point is off the wire. *)
Lemma ksq_lt_1 (z rho R : real) :
  0 < (R + rho) ^ 2 + z ^ 2 -> 0 < (R - rho) ^ 2 + z ^ 2 ->
  4 * R * rho / ((R + rho) ^ 2 + z ^ 2) < 1.
Proof.
  intros H1 H2.
  apply Rmult_lt_reg_r with ((R + rho) ^ 2 + z ^ 2); [exact H1 |].
  unfold Rdiv. rewrite Rmult_assoc, Rinv_l by lra.
  nra.
Qed.

Lemma off_wire_denominators (z rho R : real) :
  0 < R -> ~ (z = 0 /\ Rabs rho = R) ->
  0 < (R + rho) ^ 2 + z ^ 2 /\ 0 < (R - rho) ^ 2 + z ^ 2.
Proof.
  intros HR Hoff.
  split; apply sum_squares_pos;
    destruct (Req_dec_T z 0) as [Hz | Hz]; try (right; exact Hz);
    left; intros Heq; apply Hoff; split; try exact Hz.
  - assert (rho = - R) as -> by lra. rewrite Rabs_Ropp. apply Rabs_pos_eq. lra.
  - assert (rho = R) as -> by lra. apply Rabs_pos_eq. lra.
Qed.

(** Off the wire the axial field is the closed form. *)
Lemma FieldLoopBz_off_wire (z rho R : real) :
  0 < (R + rho) ^ 2 + z ^ 2 -> 0 < (R - rho) ^ 2 + z ^ 2 ->
  FieldLoopBz z rho R =
  Val (R / (PI * sqrt ((R + rho) ^ 2 + z ^ 2))
       * (EllipticK (ksq_spec z rho R)
          + EllipticE (ksq_spec z rho R) * (R ^ 2 - rho ^ 2 - z ^ 2)
            / ((R - rho) ^ 2 + z ^ 2))).
Proof.
  intros H1 H2.
  pose proof (ksq_lt_1 z rho R H1 H2) as Hk.
  unfold FieldLoopBz, ksq_spec.
  rewrite div_Val by lra. cbn [bind].
  rewrite ellipk_Val by exact Hk. cbn [bind].
  rewrite ellipe_Val by lra. cbn [bind].
  rewrite div_Val.
  - cbn [bind]. rewrite div_Val by lra. reflexivity.
  - pose proof PI_RGT_0. pose proof (sqrt_lt_R0 _ H1). nra.
Qed.

(** On the wire the axial field has no finite value. *)
Lemma FieldLoopBz_on_wire (rho R : real) :
  0 < R -> Rabs rho = R -> FieldLoopBz 0 rho R = Raise Singular.
Proof.
  intros HR Habs. unfold FieldLoopBz.
  destruct (Rcase_abs rho) as [Hneg | Hpos].
  - rewrite Rabs_left in Habs by exact Hneg.
    rewrite div_by_zero; [reflexivity |].
    replace (R + rho) with 0 by lra. simpl. ring.
  - rewrite Rabs_right in Habs by exact Hpos. subst rho.
    rewrite div_Val by nra. cbn [bind].
    rewrite ellipk_at_1; [reflexivity |].
    right. field. lra.
Qed.

(** The axial field does not see the sign of [z]. *)
Lemma FieldLoopBz_even (z rho R : real) :
  FieldLoopBz (- z) rho R = FieldLoopBz z rho R.
Proof.
  unfold FieldLoopBz.
  replace ((- z) ^ 2) with (z ^ 2) by ring.
  reflexivity.
Qed.

(** C2: for every [z], [rho] and [R > 0], [FieldLoopBz] takes
    [ksq = 4*R*rho/((R+rho)^2+z^2)], evaluates [K] and [E] at the parameter
    [ksq] itself, and returns
    [R/(pi*sqrt((R+rho)^2+z^2)) * (K + E*(R^2-rho^2-z^2)/((R-rho)^2+z^2))];
    on the wire, where this expression has no finite value, it has none. *)
Theorem FieldLoopBz_closed_form (z rho R : real) :
  0 < R -> FieldLoopBz z rho R = FieldLoopBz_spec z rho R.
Proof.
  intros HR. unfold FieldLoopBz_spec.
  destruct (Req_dec_T z 0) as [Hz | Hz].
  - destruct (Req_dec_T (Rabs rho) R) as [Hw | Hw].
    + subst z. apply FieldLoopBz_on_wire; assumption.
    + destruct (off_wire_denominators z rho R HR) as [H1 H2]; [tauto |].
      apply FieldLoopBz_off_wire; assumption.
  - destruct (off_wire_denominators z rho R HR) as [H1 H2]; [tauto |].
    apply FieldLoopBz_off_wire; assumption.
Qed.

(** C5: [FieldLoopBz(z, rho, R) = FieldLoopBz(-z, rho, R)] for every [z],
    [rho] and [R], so in particular for every [R > 0]. *)
Theorem FieldLoopBz_symmetric (z rho R : real) :
  FieldLoopBz z rho R = FieldLoopBz (- z) rho R.
Proof.
  symmetry. apply FieldLoopBz_even.
Qed.

(** ** On the axis *)

Lemma float_pow_3_2 (x : real) :
  0 < x -> float_pow x (3 / 2) = x * sqrt x /\ 0 < float_pow x (3 / 2).
Proof.
  intros Hx. unfold float_pow.
  destruct (Req_dec_T x 0) as [H0 | _]; [lra |].
  split.
  - replace (3 / 2) with (1 + / 2) by lra.
    rewrite Rpower_plus, Rpower_1, Rpower_sqrt by exact Hx. reflexivity.
  - unfold Rpower. apply exp_pos.
Qed.

(** The field of one loop on its axis, at the distance [u] from its plane. *)
Lemma on_axis_term (u R : real) :
  0 < R ->
  div (R ^ 3) (float_pow (R ^ 2 + u ^ 2) (3 / 2)) =
  Val (R ^ 3 / float_pow (R ^ 2 + u ^ 2) (3 / 2)).
Proof.
  intros HR. apply div_Val.
  assert (0 < R ^ 2 + u ^ 2) as Hq by (apply sum_squares_pos; left; lra).
  destruct (float_pow_3_2 _ Hq) as [_ Hpos]. lra.
Qed.

Lemma on_axis_term_even (u v R : real) :
  u ^ 2 = v ^ 2 ->
  R ^ 3 / float_pow (R ^ 2 + u ^ 2) (3 / 2) =
  R ^ 3 / float_pow (R ^ 2 + v ^ 2) (3 / 2).
Proof.
  intros ->. reflexivity.
Qed.

Lemma FieldAntiHelmholtzOnAxis_Val (z R : real) :
  0 < R ->
  FieldAntiHelmholtzOnAxis z R =
  Val (R ^ 3 / float_pow (R ^ 2 + (z + R / 2) ^ 2) (3 / 2)
       - R ^ 3 / float_pow (R ^ 2 + (z - R / 2) ^ 2) (3 / 2)).
Proof.
  intros HR. unfold FieldAntiHelmholtzOnAxis.
  rewrite !on_axis_term by exact HR. reflexivity.
Qed.


(** C4: for every [z] and every [R > 0], [FieldLoopBrho(z, 0, R)] is
    exactly [0]: the test [rho == 0] returns before the closed form, whose
    factor [1/rho] has no value there. *)
Theorem FieldLoopBrho_on_axis (z R : real) :
  0 < R ->
  FieldLoopBrho z 0 R = Val 0 /\
  FieldLoopBrho_closed_form z 0 R = Raise Singular.
Proof.
  intros HR. split.
  - unfold FieldLoopBrho. destruct (Req_dec_T 0 0) as [_ | H]; [reflexivity | lra].
  - assert (0 < (R + 0) ^ 2 + z ^ 2) as Hq by (apply sum_squares_pos; left; lra).
    unfold FieldLoopBrho_closed_form.
    rewrite div_Val by lra. cbn [bind].
    replace (4 * R * 0 / ((R + 0) ^ 2 + z ^ 2)) with 0 by (field; lra).
    rewrite ellipk_Val by lra. rewrite ellipe_Val by lra. cbn [bind].
    rewrite div_by_zero by ring. reflexivity.
Qed.

(** C6: for every [z] and [R > 0], [FieldAntiHelmholtzOnAxis(z, R)] is a
    number [a] and [FieldAntiHelmholtzOnAxis(-z, R)] is [-a]; at [z = 0] the
    field is [0]. *)
Theorem FieldAntiHelmholtzOnAxis_odd (z R : real) :
  0 < R ->
  (exists a, FieldAntiHelmholtzOnAxis z R = Val a /\
             FieldAntiHelmholtzOnAxis (- z) R = Val (- a)) /\
  FieldAntiHelmholtzOnAxis 0 R = Val 0.
Proof.
  intros HR. split.
  - eexists. split; [apply FieldAntiHelmholtzOnAxis_Val; exact HR |].
    rewrite FieldAntiHelmholtzOnAxis_Val by exact HR. f_equal.
    rewrite (on_axis_term_even (- z + R / 2) (z - R / 2)) by ring.
    rewrite (on_axis_term_even (- z - R / 2) (z + R / 2)) by ring.
    ring.
  - rewrite FieldAntiHelmholtzOnAxis_Val by exact HR. f_equal.
    rewrite (on_axis_term_even (0 + R / 2) (0 - R / 2)) by ring.
    ring.
Qed.

(** C7: for every [R > 0], [FieldLoopOnAxis(R/2, R)] is a number [f] and
    [FieldHelmholtzOnAxis(0, R)] is [2 * f]. *)
Theorem FieldHelmholtzOnAxis_midpoint (R : real) :
  0 < R ->
  exists f, FieldLoopOnAxis (R / 2) R = Val f /\
            FieldHelmholtzOnAxis 0 R = Val (2 * f).
Proof.
  intros HR. eexists. split.
  - unfold FieldLoopOnAxis. apply on_axis_term. exact HR.
  - unfold FieldHelmholtzOnAxis. rewrite !on_axis_term by exact HR.
    cbn [bind]. f_equal.
    rewrite (on_axis_term_even (0 + R / 2) (R / 2)) by ring.
    rewrite (on_axis_term_even (0 - R / 2) (R / 2)) by ring.
    ring.
Qed.

(** ** Calls by name *)

Lemma call_FieldLoopBz : call_global "FieldLoopBz" = FieldLoopBz.
Proof. reflexivity. Qed.

Lemma call_FieldLoopBrho : call_global "FieldLoopBrho" = FieldLoopBrho.
Proof. reflexivity. Qed.

Lemma call_FieldLoopBro (z rho R : real) :
  call_global "FieldLoopBro" z rho R = Raise (NameError "FieldLoopBro").
Proof. reflexivity. Qed.

(** C1: [FieldHelmholtzBrho] and [FieldAntiHelmholtzBrho] call
    [FieldLoopBro], a name the module does not bind, so for every input,
    singular or not, both raise [NameError] and return no number. *)
Theorem Brho_coils_NameError (z rho R : real) :
  FieldHelmholtzBrho z rho R = Raise (NameError "FieldLoopBro") /\
  FieldAntiHelmholtzBrho z rho R = Raise (NameError "FieldLoopBro").
Proof.
  unfold FieldHelmholtzBrho, FieldAntiHelmholtzBrho.
  rewrite !call_FieldLoopBro. split; reflexivity.
Qed.

(** ** Off the axis, between the two loops *)

(** C10: for every [rho] and [R > 0], [FieldAntiHelmholtzBz(0, rho, R)] is
    [0]: the two loops give the same number there, and it is subtracted from
    itself. *)
Theorem FieldAntiHelmholtzBz_midplane (rho R : real) :
  0 < R -> FieldAntiHelmholtzBz 0 rho R = Val 0.
Proof.
  intros HR. unfold FieldAntiHelmholtzBz.
  rewrite call_FieldLoopBz.
  replace (0 - R / 2) with (- (0 + R / 2)) by ring.
  rewrite FieldLoopBz_even.
  rewrite FieldLoopBz_off_wire.
  - cbn [bind]. f_equal. ring.
  - apply sum_squares_pos. right. lra.
  - apply sum_squares_pos. right. lra.
Qed.

(** ** Tesla *)

Lemma scale_in_tesla (R I : real) (field : result real) :
  0 < R ->
  (c <- div (mu0 * I) (2 * R) ;; f <- field ;; Val (c * f)) = in_tesla R I field.
Proof.
  intros HR. rewrite div_Val by lra. reflexivity.
Qed.

(** C8: for every [z], [R > 0] and [I], [FieldLoopOnAxis(z, R)] is a number
    [f] and [MagneticFieldLoopOnAxis(z, R, I)] is [mu0*I/(2*R) * f], with
    [mu0 = 4*pi*1e-7]; every other [MagneticField] function is its [Field]
    function scaled in the same way. *)
Theorem MagneticField_scaling (z rho R I : real) :
  0 < R ->
  mu0 = 4 * PI / 10000000 /\
  (exists f, FieldLoopOnAxis z R = Val f /\
             MagneticFieldLoopOnAxis z R I = Val (mu0 * I / (2 * R) * f)) /\
  MagneticFieldLoopOnAxis z R I = in_tesla R I (FieldLoopOnAxis z R) /\
  MagneticFieldLoopBz z rho R I = in_tesla R I (FieldLoopBz z rho R) /\
  MagneticFieldLoopBrho z rho R I = in_tesla R I (FieldLoopBrho z rho R) /\
  MagneticFieldHelmholtzOnAxis z R I = in_tesla R I (FieldHelmholtzOnAxis z R) /\
  MagneticFieldHelmholtzBz z rho R I = in_tesla R I (FieldHelmholtzBz z rho R) /\
  MagneticFieldHelmholtzBrho z rho R I = in_tesla R I (FieldHelmholtzBrho z rho R) /\
  MagneticFieldAntiHelmholtzOnAxis z R I =
    in_tesla R I (FieldAntiHelmholtzOnAxis z R) /\
  MagneticFieldAntiHelmholtzBz z rho R I =
    in_tesla R I (FieldAntiHelmholtzBz z rho R) /\
  MagneticFieldAntiHelmholtzBrho z rho R I =
    in_tesla R I (FieldAntiHelmholtzBrho z rho R).
Proof.
  intros HR.
  split; [unfold mu0; lra |].
  split.
  - eexists. split.
    + unfold FieldLoopOnAxis. apply on_axis_term. exact HR.
    + unfold MagneticFieldLoopOnAxis, FieldLoopOnAxis.
      rewrite div_Val by lra. rewrite on_axis_term by exact HR. reflexivity.
  - repeat split; apply scale_in_tesla; exact HR.
Qed.

(** ** The loop as straight wires, on the wire *)

(** With the point at [(z, rho) = (0, 1)] the first wire starts at the point
    itself: its displacement has length zero and the division by its cube
    has no value. *)
Lemma FieldLoopDiscrete_loop_on_wire (N : Z) (bf : vec) :
  (1 <= N)%Z -> FieldLoopDiscrete_loop 0 1 N bf = Raise Singular.
Proof.
  intros HN. unfold FieldLoopDiscrete_loop.
  destruct (Z.to_nat N) as [| n] eqn:Hn; [lia |].
  cbn [for_range]. unfold segment.
  assert (IZR N <> 0) as HN0 by (apply not_0_IZR; lia).
  rewrite !div_Val by exact HN0. cbn [bind].
  replace (INR 0 * 2 * PI / IZR N) with 0 by (simpl; field; exact HN0).
  rewrite cos_0, sin_0.
  assert (norm (1 - 1, - 0, 0) = 0) as ->.
  { unfold norm. replace ((1 - 1) ^ 2 + (- 0) ^ 2 + 0 ^ 2) with 0 by ring.
    apply sqrt_0. }
  unfold cross, vdiv.
  rewrite div_by_zero by ring. reflexivity.
Qed.

(** C9: for [z = 0], every [rho] with [|rho| = 1] and every [N],
    [FieldLoopDiscrete] returns [(0, 0, 0)]; it returns before its loop,
    which at [rho = 1] would divide by a displacement of length zero. *)
Theorem FieldLoopDiscrete_on_wire (rho : real) (N : Z) :
  Rabs rho = 1 ->
  FieldLoopDiscrete 0 rho N = Val (0, 0, 0) /\
  ((1 <= N)%Z -> FieldLoopDiscrete_loop 0 1 N (0, 0, 0) = Raise Singular).
Proof.
  intros Hrho. split.
  - unfold FieldLoopDiscrete.
    destruct (Req_dec_T 0 0) as [_ | H]; [| lra].
    destruct (Req_dec_T (Rabs rho) 1) as [_ | H]; [reflexivity | contradiction].
  - apply FieldLoopDiscrete_loop_on_wire.
Qed.

(** * Further properties of the module *)

(** ** The single-loop fields off and on the wire *)

(** [FieldLoopBz] fails in one way only. *)
Lemma FieldLoopBz_Val_or_Singular (z rho R : real) :
  (exists v, FieldLoopBz z rho R = Val v) \/ FieldLoopBz z rho R = Raise Singular.
Proof.
  unfold FieldLoopBz, div, ellipk, ellipe.
  destruct (Req_dec_T ((R + rho) ^ 2 + z ^ 2) 0); [right; reflexivity |].
  cbn [bind].
  destruct (Rlt_dec _ 1); [| right; reflexivity]. cbn [bind].
  destruct (Rle_dec _ 1); [| right; reflexivity]. cbn [bind].
  destruct (Req_dec_T (PI * sqrt ((R + rho) ^ 2 + z ^ 2)) 0);
    [right; reflexivity |].
  cbn [bind].
  destruct (Req_dec_T ((R - rho) ^ 2 + z ^ 2) 0); [right; reflexivity |].
  left. eexists. reflexivity.
Qed.

(** Off the wire and off the axis the radial field is the closed form. *)
Lemma FieldLoopBrho_off_wire (z rho R : real) :
  rho <> 0 ->
  0 < (R + rho) ^ 2 + z ^ 2 -> 0 < (R - rho) ^ 2 + z ^ 2 ->
  FieldLoopBrho z rho R =
  Val (R * z / (PI * rho * sqrt ((R + rho) ^ 2 + z ^ 2))
       * (- EllipticK (ksq_spec z rho R)
          + EllipticE (ksq_spec z rho R) * (R ^ 2 + rho ^ 2 + z ^ 2)
            / ((R - rho) ^ 2 + z ^ 2))).
Proof.
  intros Hrho H1 H2.
  pose proof (ksq_lt_1 z rho R H1 H2) as Hk.
  unfold FieldLoopBrho.
  destruct (Req_dec_T rho 0) as [H0 | _]; [contradiction |].
  unfold FieldLoopBrho_closed_form, ksq_spec.
  rewrite div_Val by lra. cbn [bind].
  rewrite ellipk_Val by exact Hk. cbn [bind].
  rewrite ellipe_Val by lra. cbn [bind].
  rewrite div_Val.
  - cbn [bind]. rewrite div_Val by lra. reflexivity.
  - pose proof PI_RGT_0 as Hpi. pose proof (sqrt_lt_R0 _ H1) as Hs.
    apply Rmult_integral_contrapositive_currified; [| lra].
    apply Rmult_integral_contrapositive_currified; [lra | exact Hrho].
Qed.

Lemma FieldLoopBrho_on_wire (rho R : real) :
  0 < R -> Rabs rho = R -> FieldLoopBrho 0 rho R = Raise Singular.
Proof.
  intros HR Habs. unfold FieldLoopBrho.
  destruct (Req_dec_T rho 0) as [H0 | _].
  - subst rho. rewrite Rabs_R0 in Habs. lra.
  - unfold FieldLoopBrho_closed_form.
    destruct (Rcase_abs rho) as [Hneg | Hpos].
    + rewrite Rabs_left in Habs by exact Hneg.
      rewrite div_by_zero; [reflexivity |].
      replace (R + rho) with 0 by lra. simpl. ring.
    + rewrite Rabs_right in Habs by exact Hpos. subst rho.
      rewrite div_Val by nra. cbn [bind].
      rewrite ellipk_at_1; [reflexivity |].
      right. field. lra.
Qed.

(** X1: for [R > 0], on the wire ([z = 0] and [|rho| = R]) neither
    [FieldLoopBz] nor [FieldLoopBrho] returns a finite number. *)
Theorem loop_fields_singular_on_wire (rho R : real) :
  0 < R -> Rabs rho = R ->
  FieldLoopBz 0 rho R = Raise Singular /\
  FieldLoopBrho 0 rho R = Raise Singular.
Proof.
  intros HR Hw. split.
  - apply FieldLoopBz_on_wire; assumption.
  - apply FieldLoopBrho_on_wire; assumption.
Qed.



(** ** Symmetry of the coil pairs *)

(** X4: [FieldHelmholtzBz(-z, rho, R) = FieldHelmholtzBz(z, rho, R)] for
    every [z], [rho] and [R], failures included. *)
Theorem FieldHelmholtzBz_even (z rho R : real) :
  FieldHelmholtzBz (- z) rho R = FieldHelmholtzBz z rho R.
Proof.
  unfold FieldHelmholtzBz. rewrite call_FieldLoopBz.
  replace (- z + R / 2) with (- (z - R / 2)) by ring.
  replace (- z - R / 2) with (- (z + R / 2)) by ring.
  rewrite !FieldLoopBz_even.
  destruct (FieldLoopBz_Val_or_Singular (z - R / 2) rho R) as [[a ->] | ->];
    destruct (FieldLoopBz_Val_or_Singular (z + R / 2) rho R) as [[b ->] | ->];
    cbn [bind]; try reflexivity.
  f_equal. ring.
Qed.


(** X6: [FieldHelmholtzOnAxis(-z, R) = FieldHelmholtzOnAxis(z, R)] for
    every [z] and [R], failures included. *)
Theorem FieldHelmholtzOnAxis_even (z R : real) :
  FieldHelmholtzOnAxis (- z) R = FieldHelmholtzOnAxis z R.
Proof.
  unfold FieldHelmholtzOnAxis.
  replace ((- z + R / 2) ^ 2) with ((z - R / 2) ^ 2) by ring.
  replace ((- z - R / 2) ^ 2) with ((z + R / 2) ^ 2) by ring.
  unfold div.
  destruct (Req_dec_T (float_pow (R ^ 2 + (z - R / 2) ^ 2) (3 / 2)) 0);
    destruct (Req_dec_T (float_pow (R ^ 2 + (z + R / 2) ^ 2) (3 / 2)) 0);
    cbn [bind]; try reflexivity.
  f_equal. ring.
Qed.

(** ** The field on the axis *)

(** The denominator of the on-axis formula, without powers. *)
Lemma on_axis_denominator (u R : real) :
  0 < R ->
  float_pow (R ^ 2 + u ^ 2) (3 / 2) =
  (R ^ 2 + u ^ 2) * sqrt (R ^ 2 + u ^ 2) /\
  R <= sqrt (R ^ 2 + u ^ 2) /\
  0 < float_pow (R ^ 2 + u ^ 2) (3 / 2).
Proof.
  intros HR.
  assert (0 < R ^ 2 + u ^ 2) as Hq by (apply sum_squares_pos; left; lra).
  destruct (float_pow_3_2 _ Hq) as [Heq Hpos].
  split; [exact Heq |]. split; [| exact Hpos].
  rewrite <- (sqrt_pow2 R) at 1 by lra.
  apply sqrt_le_1_alt. nra.
Qed.

(** ** Radii that are not positive *)

(** X12: a negative radius is not refused: for [R > 0],
    [FieldLoopOnAxis(z, -R)] is the number [FieldLoopOnAxis(z, R)] with the
    opposite sign. *)
Theorem FieldLoopOnAxis_negative_radius (z R : real) :
  0 < R ->
  exists f, FieldLoopOnAxis z R = Val f /\ FieldLoopOnAxis z (- R) = Val (- f).
Proof.
  intros HR. unfold FieldLoopOnAxis. eexists. split.
  - apply on_axis_term. exact HR.
  - replace ((- R) ^ 2) with (R ^ 2) by ring.
    destruct (on_axis_denominator z R HR) as [_ [_ Hpos]].
    rewrite div_Val by lra. f_equal.
    replace ((- R) ^ 3) with (- R ^ 3) by ring.
    unfold Rdiv. ring.
Qed.

(** X13: with [R = 0] and [z <> 0] the three single-loop fields are [0],
    and their counterparts in Tesla have no value: they divide by
    [2*R]. *)
Theorem zero_radius (z rho I : real) :
  z <> 0 ->
  FieldLoopOnAxis z 0 = Val 0 /\
  FieldLoopBz z rho 0 = Val 0 /\
  FieldLoopBrho z rho 0 = Val 0 /\
  MagneticFieldLoopOnAxis z 0 I = Raise Singular /\
  MagneticFieldLoopBz z rho 0 I = Raise Singular /\
  MagneticFieldLoopBrho z rho 0 I = Raise Singular.
Proof.
  intros Hz.
  assert (0 < (0 + rho) ^ 2 + z ^ 2) as H1 by (apply sum_squares_pos; right; exact Hz).
  assert (0 < (0 - rho) ^ 2 + z ^ 2) as H2 by (apply sum_squares_pos; right; exact Hz).
  assert (0 < 0 ^ 2 + z ^ 2) as Hq by (apply sum_squares_pos; right; exact Hz).
  repeat split.
  - unfold FieldLoopOnAxis.
    destruct (float_pow_3_2 _ Hq) as [_ Hpos].
    rewrite div_Val by lra. f_equal. unfold Rdiv. ring.
  - rewrite FieldLoopBz_off_wire by assumption. f_equal. unfold Rdiv. ring.
  - destruct (Req_dec_T rho 0) as [H0 | H0].
    + unfold FieldLoopBrho. destruct (Req_dec_T rho 0); [reflexivity | contradiction].
    + rewrite FieldLoopBrho_off_wire by assumption. f_equal. unfold Rdiv. ring.
  - unfold MagneticFieldLoopOnAxis. rewrite div_by_zero by ring. reflexivity.
  - unfold MagneticFieldLoopBz. rewrite div_by_zero by ring. reflexivity.
  - unfold MagneticFieldLoopBrho. rewrite div_by_zero by ring. reflexivity.
Qed.

(** ** The radial field of the pairs, in Tesla *)

(** X14: [MagneticFieldHelmholtzBrho] and [MagneticFieldAntiHelmholtzBrho]
    never return a number; for [R <> 0] both raise [NameError] for
    [FieldLoopBro]. *)
Theorem MagneticField_Brho_coils_fail (z rho R I : real) :
  (forall v, MagneticFieldHelmholtzBrho z rho R I <> Val v) /\
  (forall v, MagneticFieldAntiHelmholtzBrho z rho R I <> Val v) /\
  (R <> 0 ->
   MagneticFieldHelmholtzBrho z rho R I = Raise (NameError "FieldLoopBro") /\
   MagneticFieldAntiHelmholtzBrho z rho R I = Raise (NameError "FieldLoopBro")).
Proof.
  unfold MagneticFieldHelmholtzBrho, MagneticFieldAntiHelmholtzBrho,
    FieldHelmholtzBrho, FieldAntiHelmholtzBrho.
  rewrite !call_FieldLoopBro. unfold div.
  destruct (Req_dec_T (2 * R) 0) as [H0 | H0]; cbn [bind].
  - split; [intros v; discriminate |]. split; [intros v; discriminate |].
    intros HR. lra.
  - split; [intros v; discriminate |]. split; [intros v; discriminate |].
    intros _. split; reflexivity.
Qed.


(** ** The loop as straight wires: no wire *)

Lemma vdiv_zero (c : real) : c <> 0 -> vdiv (0, 0, 0) c = Val (0, 0, 0).
Proof.
  intros Hc. unfold vdiv. rewrite div_Val by exact Hc. cbn [bind].
  replace (0 / c) with 0 by (field; exact Hc). reflexivity.
Qed.

Lemma two_PI_neq_0 : 2 * PI <> 0.
Proof. pose proof PI_RGT_0. lra. Qed.

(** X17: with [N <= 0] there is no wire: [FieldLoopDiscrete] returns
    [(0, 0, 0)] at every point. *)
Theorem FieldLoopDiscrete_no_segment (z rho : real) (N : Z) :
  (N <= 0)%Z -> FieldLoopDiscrete z rho N = Val (0, 0, 0).
Proof.
  intros HN.
  assert (FieldLoopDiscrete_loop z rho N (0, 0, 0) = Val (0, 0, 0)) as Hloop.
  { unfold FieldLoopDiscrete_loop.
    replace (Z.to_nat N) with 0%nat by lia.
    cbn [for_range bind]. apply vdiv_zero. apply two_PI_neq_0. }
  unfold FieldLoopDiscrete.
  destruct (Req_dec_T z 0); [destruct (Req_dec_T (Rabs rho) 1) |];
    try exact Hloop; reflexivity.
Qed.

(** ** Between the two loops, off the axis *)

(** X21: for [R > 0], in the plane midway between the loops the Helmholtz
    pair gives twice the field of one loop: [FieldLoopBz(R/2, rho, R)] is a
    number [f] and [FieldHelmholtzBz(0, rho, R)] is [2 * f]. *)
Theorem FieldHelmholtzBz_midplane (rho R : real) :
  0 < R ->
  exists f, FieldLoopBz (R / 2) rho R = Val f /\
            FieldHelmholtzBz 0 rho R = Val (2 * f).
Proof.
  intros HR.
  assert (0 < (R + rho) ^ 2 + (R / 2) ^ 2) as H1
    by (apply sum_squares_pos; right; lra).
  assert (0 < (R - rho) ^ 2 + (R / 2) ^ 2) as H2
    by (apply sum_squares_pos; right; lra).
  eexists. split; [apply FieldLoopBz_off_wire; assumption |].
  unfold FieldHelmholtzBz. rewrite call_FieldLoopBz.
  replace (0 - R / 2) with (- (R / 2)) by ring.
  replace (0 + R / 2) with (R / 2) by ring.
  rewrite FieldLoopBz_even.
  rewrite (FieldLoopBz_off_wire _ rho R H1 H2). cbn [bind]. f_equal. ring.
Qed.

(** ** The loop as straight wires, seen from the other side *)

Lemma vec_eq (a1 a2 a3 b1 b2 b3 : real) :
  a1 = b1 -> a2 = b2 -> a3 = b3 -> (a1, a2, a3) = (b1, b2, b3).
Proof. intros -> -> ->. reflexivity. Qed.

Lemma segment_mirror (z rho : real) (N : Z) (i : nat) (b1 b2 b3 : real) :
  match segment z rho N i (b1, b2, b3) with
  | Val (a1, a2, a3) =>
      segment (- z) rho N i (- b1, - b2, b3) = Val (- a1, - a2, a3)
  | Raise e => segment (- z) rho N i (- b1, - b2, b3) = Raise e
  end.
Proof.
  unfold segment.
  destruct (Req_dec_T (IZR N) 0) as [HN | HN].
  - rewrite !div_by_zero by exact HN. reflexivity.
  - rewrite !div_Val by exact HN. cbn [bind]. cbv zeta.
    set (t0 := INR i * 2 * PI / IZR N).
    set (t1 := t0 + 2 * PI / IZR N).
    assert (norm (rho - cos t0, - sin t0, - z) = norm (rho - cos t0, - sin t0, z))
      as -> by (unfold norm; f_equal; ring).
    set (n3 := norm (rho - cos t0, - sin t0, z) ^ 3).
    unfold cross, vdiv, div.
    destruct (Req_dec_T n3 0) as [H0 | H0]; cbn [bind]; [reflexivity |].
    unfold vadd. f_equal. apply vec_eq; field; exact H0.
Qed.

Lemma for_range_mirror (z rho : real) (N : Z) (n start : nat) (b1 b2 b3 : real) :
  match for_range start n (segment z rho N) (b1, b2, b3) with
  | Val (a1, a2, a3) =>
      for_range start n (segment (- z) rho N) (- b1, - b2, b3) =
      Val (- a1, - a2, a3)
  | Raise e => for_range start n (segment (- z) rho N) (- b1, - b2, b3) = Raise e
  end.
Proof.
  revert start b1 b2 b3.
  induction n as [| n IH]; intros start b1 b2 b3.
  - reflexivity.
  - cbn [for_range].
    pose proof (segment_mirror z rho N start b1 b2 b3) as Hs.
    destruct (segment z rho N start (b1, b2, b3)) as [[[a1 a2] a3] | e];
      rewrite Hs; cbn [bind].
    + apply IH.
    + reflexivity.
Qed.

(** X22: [FieldLoopDiscrete] at [-z] is the mirror image of its result at
    [z]: the same axial component, the opposite two others, and the same
    failure where it fails. *)
Theorem FieldLoopDiscrete_mirror (z rho : real) (N : Z) :
  match FieldLoopDiscrete z rho N with
  | Val (f_rho, f_phi, f_z) =>
      FieldLoopDiscrete (- z) rho N = Val (- f_rho, - f_phi, f_z)
  | Raise e => FieldLoopDiscrete (- z) rho N = Raise e
  end.
Proof.
  assert ((- 0, - 0, 0) = (0, 0, 0) :> vec) as Hzero
    by (apply vec_eq; ring).
  assert (match FieldLoopDiscrete_loop z rho N (0, 0, 0) with
          | Val (a1, a2, a3) =>
              FieldLoopDiscrete_loop (- z) rho N (0, 0, 0) = Val (- a1, - a2, a3)
          | Raise e => FieldLoopDiscrete_loop (- z) rho N (0, 0, 0) = Raise e
          end) as Hloop.
  { unfold FieldLoopDiscrete_loop.
    pose proof (for_range_mirror z rho N (Z.to_nat N) 0 0 0 0) as Hr.
    rewrite Hzero in Hr.
    destruct (for_range 0 (Z.to_nat N) (segment z rho N) (0, 0, 0))
      as [[[a1 a2] a3] | e]; rewrite Hr; cbn [bind].
    - pose proof two_PI_neq_0 as H2pi.
      unfold vdiv. rewrite !div_Val by exact H2pi. cbn [bind].
      pose proof PI_RGT_0 as Hpi.
      f_equal. apply vec_eq; field; lra.
    - reflexivity. }
  unfold FieldLoopDiscrete.
  destruct (Req_dec_T z 0) as [Hz | Hz];
    destruct (Req_dec_T (- z) 0) as [Hz' | Hz']; try (exfalso; lra).
  - destruct (Req_dec_T (Rabs rho) 1); [symmetry in Hzero; f_equal; exact Hzero |].
    exact Hloop.
  - exact Hloop.
Qed.

End HelmholtzCoil.

(** * The theorems at concrete inputs *)

Lemma FieldLoopBz_closed_form_witness :
  0 < 1 /\
  FieldLoopBz K_series E_series 1 (1 / 2) 1 =
  FieldLoopBz_spec K_series E_series 1 (1 / 2) 1.
Proof.
  split; [lra | apply FieldLoopBz_closed_form; lra].
Defined.


Lemma FieldLoopBrho_on_axis_witness :
  0 < 1 /\
  FieldLoopBrho K_series E_series 3 0 1 = Val 0 /\
  FieldLoopBrho_closed_form K_series E_series 3 0 1 = Raise Singular.
Proof.
  split; [lra | apply FieldLoopBrho_on_axis; lra].
Defined.

Lemma FieldAntiHelmholtzOnAxis_odd_witness :
  0 < 1 /\
  (exists a, FieldAntiHelmholtzOnAxis (1 / 4) 1 = Val a /\
             FieldAntiHelmholtzOnAxis (- (1 / 4)) 1 = Val (- a)) /\
  FieldAntiHelmholtzOnAxis 0 1 = Val 0.
Proof.
  split; [lra | apply FieldAntiHelmholtzOnAxis_odd; lra].
Defined.

Lemma FieldHelmholtzOnAxis_midpoint_witness :
  0 < 2 /\
  exists f, FieldLoopOnAxis (2 / 2) 2 = Val f /\
            FieldHelmholtzOnAxis 0 2 = Val (2 * f).
Proof.
  split; [lra | apply FieldHelmholtzOnAxis_midpoint; lra].
Defined.

Lemma MagneticField_scaling_witness :
  0 < 1 / 20 /\
  exists f, FieldLoopOnAxis 0 (1 / 20) = Val f /\
            MagneticFieldLoopOnAxis 0 (1 / 20) 1 =
            Val (mu0 * 1 / (2 * (1 / 20)) * f).
Proof.
  split; [lra |].
  apply (MagneticField_scaling K_series E_series 0 0 (1 / 20) 1). lra.
Defined.

Lemma FieldLoopDiscrete_on_wire_witness :
  Rabs (- 1) = 1 /\ (1 <= 360)%Z /\
  FieldLoopDiscrete 0 (- 1) 360 = Val (0, 0, 0) /\
  FieldLoopDiscrete_loop 0 1 360 (0, 0, 0) = Raise Singular.
Proof.
  assert (Rabs (- 1) = 1) as Habs by (unfold Rabs; destruct (Rcase_abs (- 1)); lra).
  assert (1 <= 360)%Z as HN by lia.
  split; [exact Habs |]. split; [exact HN |].
  destruct (FieldLoopDiscrete_on_wire (- 1) 360 Habs) as [Hret Hloop].
  split; [exact Hret | exact (Hloop HN)].
Defined.

Lemma FieldAntiHelmholtzBz_midplane_witness :
  0 < 1 /\ FieldAntiHelmholtzBz K_series E_series 0 (1 / 2) 1 = Val 0.
Proof.
  split; [lra | apply FieldAntiHelmholtzBz_midplane; lra].
Defined.

Lemma loop_fields_singular_on_wire_witness :
  0 < 2 /\ Rabs 2 = 2 /\
  FieldLoopBz K_series E_series 0 2 2 = Raise Singular /\
  FieldLoopBrho K_series E_series 0 2 2 = Raise Singular.
Proof.
  assert (0 < 2) as H2 by lra.
  assert (Rabs 2 = 2) as Hw by (apply Rabs_pos_eq; lra).
  split; [exact H2 |]. split; [exact Hw |].
  exact (loop_fields_singular_on_wire K_series E_series 2 2 H2 Hw).
Defined.




Lemma FieldLoopOnAxis_negative_radius_witness :
  0 < 2 /\
  exists f, FieldLoopOnAxis 1 2 = Val f /\ FieldLoopOnAxis 1 (- 2) = Val (- f).
Proof.
  split; [lra | apply FieldLoopOnAxis_negative_radius; lra].
Defined.

Lemma zero_radius_witness :
  1 <> 0 /\
  FieldLoopOnAxis 1 0 = Val 0 /\
  FieldLoopBz K_series E_series 1 2 0 = Val 0 /\
  FieldLoopBrho K_series E_series 1 2 0 = Val 0 /\
  MagneticFieldLoopOnAxis 1 0 5 = Raise Singular /\
  MagneticFieldLoopBz K_series E_series 1 2 0 5 = Raise Singular /\
  MagneticFieldLoopBrho K_series E_series 1 2 0 5 = Raise Singular.
Proof.
  split; [lra | apply zero_radius; lra].
Defined.

Lemma MagneticField_Brho_coils_fail_witness :
  1 <> 0 /\
  MagneticFieldHelmholtzBrho K_series E_series 0 (1 / 2) 1 1 =
    Raise (NameError "FieldLoopBro") /\
  MagneticFieldAntiHelmholtzBrho K_series E_series 0 (1 / 2) 1 1 =
    Raise (NameError "FieldLoopBro").
Proof.
  assert (1 <> 0) as H1 by lra.
  split; [exact H1 |].
  destruct (MagneticField_Brho_coils_fail K_series E_series 0 (1 / 2) 1 1)
    as [_ [_ H]].
  exact (H H1).
Defined.


Lemma FieldLoopDiscrete_no_segment_witness :
  (0 <= 0)%Z /\ FieldLoopDiscrete 1 2 0 = Val (0, 0, 0).
Proof.
  split; [lia | apply FieldLoopDiscrete_no_segment; lia].
Defined.

Lemma FieldHelmholtzBz_midplane_witness :
  0 < 1 /\
  exists f, FieldLoopBz K_series E_series (1 / 2) 1 1 = Val f /\
            FieldHelmholtzBz K_series E_series 0 1 1 = Val (2 * f).
Proof.
  split; [lra | apply FieldHelmholtzBz_midplane; lra].
Defined.

(** * The axis in double precision *)

(** Every power taken at [z = 4], [rho = 0], [R = 3] is a binary64 number,
    so [Double.power] is the [pow] of the C library there. *)
Lemma powers_on_axis_exact :
  Double.power 3 Double.Two = 9%float /\
  Double.power 4 Double.Two = 16%float /\
  Double.power 0 Double.Two = 0%float /\
  Double.power 3 Double.Three = 27%float /\
  Double.power 25 Double.ThreeHalves = 125%float.
Proof.
  repeat split; vm_compute; reflexivity.
Qed.

